(** * webthing-node: the observable property value of [src/lib/value.ts]

    [Value] keeps the last known value of a property, optionally forwards
    writes to the backing thing, optionally pulls reads from it, and emits an
    ['update'] event when the stored value changes.

    The development has four layers:
    - JavaScript values, [typeof] and strict equality (the [!==] of the guard
      in [notifyOfExternalUpdate]);
    - the class itself: its fields, its inherited listener table, and the
      three methods as state-passing functions that log what they do;
    - the same methods with listeners that may throw, for the statements
      about failing calls;
    - a job-queue machine for calls whose awaits overlap. *)

From Stdlib Require Import List String Bool ZArith PArith Lia.
From Stdlib Require Import Floats.SpecFloat.
Import ListNotations.
Open Scope string_scope.
Open Scope list_scope.

(** ** JavaScript values *)

(** Numbers are IEEE 754 doubles; objects and functions are known by their
    reference only, symbols by their identity. *)
Inductive JsValue : Type :=
| JsUndefined
| JsNull
| JsBoolean (b : bool)
| JsNumber (f : spec_float)
| JsBigInt (z : Z)
| JsString (s : string)
| JsSymbol (id : positive)
| JsObject (ref : positive)
| JsFunction (ref : positive).

Definition typeof (v : JsValue) : string :=
  match v with
  | JsUndefined => "undefined"
  | JsNull => "object"
  | JsBoolean _ => "boolean"
  | JsNumber _ => "number"
  | JsBigInt _ => "bigint"
  | JsString _ => "string"
  | JsSymbol _ => "symbol"
  | JsObject _ => "object"
  | JsFunction _ => "function"
  end.

(** [a === b]: operands of different types are never equal; numbers compare
    as doubles, so NaN equals nothing and the two zeros are equal; objects
    compare by reference. *)
Definition strict_equals (a b : JsValue) : bool :=
  match a, b with
  | JsUndefined, JsUndefined => true
  | JsNull, JsNull => true
  | JsBoolean x, JsBoolean y => Bool.eqb x y
  | JsNumber x, JsNumber y => SFeqb x y
  | JsBigInt x, JsBigInt y => Z.eqb x y
  | JsString x, JsString y => String.eqb x y
  | JsSymbol x, JsSymbol y => Pos.eqb x y
  | JsObject x, JsObject y => Pos.eqb x y
  | JsFunction x, JsFunction y => Pos.eqb x y
  | _, _ => false
  end.

(** [a !== b] *)
Definition strict_not_equals (a b : JsValue) : bool := negb (strict_equals a b).

(** The two "no value" sentinels. *)
Definition is_empty (v : JsValue) : bool :=
  match v with
  | JsUndefined | JsNull => true
  | _ => false
  end.

Definition NaN : JsValue := JsNumber S754_nan.
Definition pos_zero : JsValue := JsNumber (S754_zero false).
Definition neg_zero : JsValue := JsNumber (S754_zero true).
(** The double nearest to the integer [n], in its binary64 representation. *)
Definition num (n : Z) : JsValue := JsNumber (binary_normalize 53 1024 n 0 false).

(** ** What an execution does, in order *)

Definition Listener := positive.

Inductive Event : Type :=
| EvForward (v : JsValue)                 (* this.valueForwarder(v) is called *)
| EvRequest                               (* this.valueRequestor() is called *)
| EvStore (v : JsValue)                   (* this.lastValue = v *)
| EvEmit (name : string) (v : JsValue)    (* this.emit(name, v) *)
| EvListener (l : Listener) (v : JsValue) (* listener l is called with v *).

(** ** The listener table inherited from EventEmitter

    A listener is client code: it is known by its identity, and calling it
    is recorded in the log.  [emit] calls the listeners registered under the
    event's name, synchronously, in the order they were added.  In this
    module every listener returns normally; listeners that throw are
    modelled further down, for the statements about failing calls. *)
Module EventEmitter.

Record t : Type := mk { registrations : list (string * Listener) }.

Definition empty : t := mk [].

Definition on (name : string) (l : Listener) (e : t) : t :=
  mk (registrations e ++ [(name, l)]).

Definition listeners (name : string) (e : t) : list Listener :=
  map snd (filter (fun r => String.eqb (fst r) name) (registrations e)).

Definition emit (name : string) (arg : JsValue) (e : t) : list Event :=
  EvEmit name arg :: map (fun l => EvListener l arg) (listeners name e).

End EventEmitter.

(** ** Results of calls *)

(** How a promise ends up. *)
Inductive Settlement (A : Type) : Type :=
| Fulfils (a : A)
| Rejects (e : JsValue)
| NeverSettles.
Arguments Fulfils {A} a.
Arguments Rejects {A} e.
Arguments NeverSettles {A}.

(** What a call of a forwarder or requestor does: return a plain value, throw,
    or return a promise. *)
Inductive Reply (A : Type) : Type :=
| Returned (a : A)
| Threw (e : JsValue)
| Promised (p : Settlement A).
Arguments Returned {A} a.
Arguments Threw {A} e.
Arguments Promised {A} p.

(** What an awaited call of [set] or [get] comes to: the call itself throws,
    or the promise it returns is fulfilled, is rejected, or stays pending. *)
Inductive Outcome (A : Type) : Type :=
| Resolved (a : A)
| Rejected (e : JsValue)
| Thrown (e : JsValue)
| Pending.
Arguments Resolved {A} a.
Arguments Rejected {A} e.
Arguments Thrown {A} e.
Arguments Pending {A}.

Definition failed {A : Type} (o : Outcome A) : bool :=
  match o with
  | Rejected _ | Thrown _ => true
  | Resolved _ | Pending => false
  end.

(** ** Trace helpers *)

Definition is_emit (ev : Event) : bool :=
  match ev with EvEmit _ _ => true | _ => false end.

Definition is_forward (ev : Event) : bool :=
  match ev with EvForward _ => true | _ => false end.

Definition count_emits (tr : list Event) : nat := List.length (filter is_emit tr).

(** ** Sample backing things

    A device that holds one value: its forwarder writes the value, its
    requestor reads it, and both answer through promises.  An offline device
    rejects every write. *)

Definition device_forwarder : JsValue -> JsValue -> Reply unit * JsValue :=
  fun value _ => (Promised (Fulfils tt), value).

Definition device_requestor : JsValue -> Reply JsValue * JsValue :=
  fun held => (Promised (Fulfils held), held).

Definition offline_forwarder : JsValue -> JsValue -> Reply unit * JsValue :=
  fun _ held => (Promised (Rejects (JsString "offline")), held).

Section ValueClass.

(** The backing thing behind the callbacks: a forwarder or requestor may
    read and change it, and may answer differently on every call. *)
Variable World : Type.

Definition Forwarder : Type := JsValue -> World -> Reply unit * World.
Definition Requestor : Type := World -> Reply JsValue * World.

Record Value : Type := mkValue {
  lastValue : JsValue;
  valueForwarder : option Forwarder;
  valueRequestor : option Requestor;
  emitter : EventEmitter.t
}.

(** [new Value(initialValue, valueForwarder, valueRequestor)] *)
Definition constructor (initialValue : JsValue)
    (fwd : option Forwarder) (req : option Requestor) : Value :=
  mkValue initialValue fwd req EventEmitter.empty.

(** [value.on(name, l)] *)
Definition on (name : string) (l : Listener) (v : Value) : Value :=
  mkValue (lastValue v) (valueForwarder v) (valueRequestor v)
          (EventEmitter.on name l (emitter v)).

(** The observers of a value: the listeners of its ['update'] event. *)
Definition observers (v : Value) : list Listener :=
  EventEmitter.listeners "update" (emitter v).

(** The object, the world behind its callbacks, and the log so far. *)
Record Config : Type := mkConfig {
  this : Value;
  world : World;
  log : list Event
}.

Definition M (A : Type) : Type := Config -> A * Config.

Definition ret {A : Type} (a : A) : M A := fun c => (a, c).

Definition bind {A B : Type} (m : M A) (k : A -> M B) : M B :=
  fun c => let (a, c') := m c in k a c'.

Notation "x <- m ;; k" := (bind m (fun x => k))
  (at level 61, m at next level, right associativity).
Notation "m ;;; k" := (bind m (fun _ => k))
  (at level 61, right associativity).

Definition read_this : M Value := fun c => (this c, c).

Definition record (evs : list Event) : M unit :=
  fun c => (tt, mkConfig (this c) (world c) (log c ++ evs)).

Definition assign_lastValue (v : JsValue) : M unit :=
  fun c =>
    let o := this c in
    (tt, mkConfig (mkValue v (valueForwarder o) (valueRequestor o) (emitter o))
                  (world c) (log c ++ [EvStore v])).

Definition emit (name : string) (v : JsValue) : M unit :=
  o <- read_this ;;
  record (EventEmitter.emit name v (emitter o)).

Definition call_forwarder (f : Forwarder) (v : JsValue) : M (Reply unit) :=
  fun c =>
    let (r, w) := f v (world c) in
    (r, mkConfig (this c) w (log c ++ [EvForward v])).

Definition call_requestor (f : Requestor) : M (Reply JsValue) :=
  fun c =>
    let (r, w) := f (world c) in
    (r, mkConfig (this c) w (log c ++ [EvRequest])).

(** The guard of [notifyOfExternalUpdate]:
    [typeof value !== 'undefined' && value !== null && value !== this.lastValue]. *)
Definition update_guard (value last : JsValue) : bool :=
  negb (String.eqb (typeof value) "undefined")
  && strict_not_equals value JsNull
  && strict_not_equals value last.

Definition notifyOfExternalUpdate (value : JsValue) : M unit :=
  o <- read_this ;;
  if update_guard value (lastValue o)
  then assign_lastValue value ;;; emit "update" value
  else ret tt.

(** [set(value)], awaited.  The argument of [Promise.resolve] is evaluated
    inside [set], so a forwarder that throws makes the call itself throw;
    the [then] callback runs once the forwarder's result is fulfilled. *)
Definition set (value : JsValue) : M (Outcome unit) :=
  o <- read_this ;;
  match valueForwarder o with
  | Some f =>
      r <- call_forwarder f value ;;
      match r with
      | Threw e => ret (Thrown e)
      | Returned _ | Promised (Fulfils _) =>
          notifyOfExternalUpdate value ;;; ret (Resolved tt)
      | Promised (Rejects e) => ret (Rejected e)
      | Promised NeverSettles => ret Pending
      end
  | None => notifyOfExternalUpdate value ;;; ret (Resolved tt)
  end.

(** [get()], awaited. *)
Definition get : M (Outcome JsValue) :=
  o <- read_this ;;
  match valueRequestor o with
  | Some f =>
      r <- call_requestor f ;;
      match r with
      | Threw e => ret (Thrown e)
      | Returned newValue | Promised (Fulfils newValue) =>
          notifyOfExternalUpdate newValue ;;; ret (Resolved newValue)
      | Promised (Rejects e) => ret (Rejected e)
      | Promised NeverSettles => ret Pending
      end
  | None => ret (Resolved (lastValue o))
  end.

(** ** Sequences of awaited operations *)

Inductive Op : Type :=
| OpSet (value : JsValue)
| OpGet
| OpNotify (value : JsValue)
| OpOn (name : string) (l : Listener).

Definition run_op (op : Op) (c : Config) : Config :=
  match op with
  | OpSet value => snd (set value c)
  | OpGet => snd (get c)
  | OpNotify value => snd (notifyOfExternalUpdate value c)
  | OpOn name l => mkConfig (on name l (this c)) (world c) (log c)
  end.

Definition run_ops (ops : list Op) (c : Config) : Config :=
  fold_left (fun c op => run_op op c) ops c.

(** ** Calls whose awaits overlap: the job queue

    A call of [set] or [get] runs up to its single suspension point: the
    callback is invoked and a [then] callback is attached to its result.
    When that result is fulfilled the [then] callback becomes a job; jobs
    run one at a time, oldest first. *)

Inductive Job : Type :=
| ThenSet (id : nat) (value : JsValue)     (* () => this.notifyOfExternalUpdate(value) *)
| ThenGet (id : nat) (newValue : JsValue)  (* (newValue) => { notify; return newValue } *).

Definition job_id (j : Job) : nat :=
  match j with ThenSet id _ | ThenGet id _ => id end.

Definition job_value (j : Job) : JsValue :=
  match j with ThenSet _ v | ThenGet _ v => v end.

(** A [then] callback attached to a promise that has not settled yet,
    together with how that promise will settle. *)
Inductive Reaction : Type :=
| OnSet (value : JsValue) (p : Settlement unit)
| OnGet (p : Settlement JsValue).

Record Loop : Type := mkLoop {
  config : Config;
  calls : nat;                              (* calls so far: the next call's id *)
  reactions : list (nat * Reaction);        (* callbacks on unsettled promises *)
  jobs : list Job;                          (* the job queue, oldest first *)
  outcomes : list (nat * Outcome JsValue);  (* how calls ended, oldest first *)
  ready_order : list (nat * JsValue);       (* callbacks in the order they became jobs *)
  applied_order : list (nat * JsValue)      (* callbacks in the order they ran *)
}.

Definition boot (c : Config) : Loop := mkLoop c 0 [] [] [] [] [].

Inductive Action : Type :=
| CallSet (value : JsValue)   (* value.set(value) is called *)
| CallGet                     (* value.get() is called *)
| Settle (id : nat)           (* the promise awaited by call [id] settles *)
| RunJob                      (* the oldest job runs *).

Definition enqueue (j : Job) (st : Loop) : Loop :=
  mkLoop (config st) (calls st) (reactions st) (jobs st ++ [j]) (outcomes st)
         (ready_order st ++ [(job_id j, job_value j)]) (applied_order st).

Definition finish (id : nat) (o : Outcome JsValue) (st : Loop) : Loop :=
  mkLoop (config st) (calls st) (reactions st) (jobs st)
         (outcomes st ++ [(id, o)]) (ready_order st) (applied_order st).

Definition attach (id : nat) (r : Reaction) (st : Loop) : Loop :=
  mkLoop (config st) (calls st) (reactions st ++ [(id, r)]) (jobs st)
         (outcomes st) (ready_order st) (applied_order st).

Definition with_config (c : Config) (st : Loop) : Loop :=
  mkLoop c (calls st) (reactions st) (jobs st)
         (outcomes st) (ready_order st) (applied_order st).

Definition next_call (st : Loop) : Loop :=
  mkLoop (config st) (S (calls st)) (reactions st) (jobs st)
         (outcomes st) (ready_order st) (applied_order st).

Definition detach (id : nat) (st : Loop) : Loop :=
  mkLoop (config st) (calls st)
         (filter (fun r => negb (Nat.eqb (fst r) id)) (reactions st)) (jobs st)
         (outcomes st) (ready_order st) (applied_order st).

Definition reaction_of (id : nat) (st : Loop) : option Reaction :=
  match find (fun r => Nat.eqb (fst r) id) (reactions st) with
  | Some r => Some (snd r)
  | None => None
  end.

(** The synchronous part of [set(value)]. *)
Definition call_set (value : JsValue) (st : Loop) : Loop :=
  let id := calls st in
  next_call
    match valueForwarder (this (config st)) with
    | Some f =>
        let (r, c) := call_forwarder f value (config st) in
        let st1 := with_config c st in
        match r with
        | Threw e => finish id (Thrown e) st1
        | Returned _ => enqueue (ThenSet id value) st1
        | Promised p => attach id (OnSet value p) st1
        end
    | None => enqueue (ThenSet id value) st
    end.

(** The synchronous part of [get()]. *)
Definition call_get (st : Loop) : Loop :=
  let id := calls st in
  next_call
    match valueRequestor (this (config st)) with
    | Some f =>
        let (r, c) := call_requestor f (config st) in
        let st1 := with_config c st in
        match r with
        | Threw e => finish id (Thrown e) st1
        | Returned newValue => enqueue (ThenGet id newValue) st1
        | Promised p => attach id (OnGet p) st1
        end
    | None => finish id (Resolved (lastValue (this (config st)))) st
    end.

(** The promise awaited by call [id] settles the way it was going to. *)
Definition settle (id : nat) (st : Loop) : Loop :=
  match reaction_of id st with
  | Some (OnSet value (Fulfils _)) => enqueue (ThenSet id value) (detach id st)
  | Some (OnGet (Fulfils newValue)) => enqueue (ThenGet id newValue) (detach id st)
  | Some (OnSet _ (Rejects e)) | Some (OnGet (Rejects e)) =>
      finish id (Rejected e) (detach id st)
  | Some (OnSet _ NeverSettles) | Some (OnGet NeverSettles) | None => st
  end.

(** The oldest job runs to completion. *)
Definition run_job (st : Loop) : Loop :=
  match jobs st with
  | [] => st
  | j :: rest =>
      let c := snd (notifyOfExternalUpdate (job_value j) (config st)) in
      let result := match j with ThenSet _ _ => JsUndefined | ThenGet _ v => v end in
      mkLoop c (calls st) (reactions st) rest
             (outcomes st ++ [(job_id j, Resolved result)])
             (ready_order st) (applied_order st ++ [(job_id j, job_value j)])
  end.

Definition step (a : Action) (st : Loop) : Loop :=
  match a with
  | CallSet value => call_set value st
  | CallGet => call_get st
  | Settle id => settle id st
  | RunJob => run_job st
  end.

Definition run (acts : list Action) (st : Loop) : Loop :=
  fold_left (fun st a => step a st) acts st.

(** The update procedure applied to a list of values, one after the other. *)
Definition apply_updates (vs : list JsValue) (c : Config) : Config :=
  fold_left (fun c v => snd (notifyOfExternalUpdate v c)) vs c.

(** ** Listeners that throw

    A listener may throw.  [emit] then stops at that listener and the
    exception leaves [emit] and [notifyOfExternalUpdate], after [lastValue]
    was assigned; in [set] and [get] it leaves the [then] callback, so the
    promise of the call is rejected. *)

(** What each listener does when called with a value: [Some e] when it
    throws [e], [None] when it returns. *)
Definition Behaviour : Type := Listener -> JsValue -> option JsValue.

(** The listeners are called in order, up to the first that throws. *)
Fixpoint call_listeners (b : Behaviour) (ls : list Listener) (arg : JsValue)
    : list Event * option JsValue :=
  match ls with
  | [] => ([], None)
  | l :: ls' =>
      match b l arg with
      | Some e => ([EvListener l arg], Some e)
      | None =>
          let (evs, thrown) := call_listeners b ls' arg in
          (EvListener l arg :: evs, thrown)
      end
  end.

(** [this.emit(name, v)]; the result is the exception, if a listener threw. *)
Definition emit_throwing (b : Behaviour) (name : string) (v : JsValue)
    : M (option JsValue) :=
  o <- read_this ;;
  let (evs, thrown) :=
    call_listeners b (EventEmitter.listeners name (emitter o)) v in
  record (EvEmit name v :: evs) ;;; ret thrown.

Definition notifyOfExternalUpdate_throwing (b : Behaviour) (value : JsValue)
    : M (option JsValue) :=
  o <- read_this ;;
  if update_guard value (lastValue o)
  then assign_lastValue value ;;; emit_throwing b "update" value
  else ret None.

(** How the promise of a [then] callback settles: rejected with what the
    callback threw, fulfilled with what it returned. *)
Definition settled {A : Type} (thrown : option JsValue) (a : A) : Outcome A :=
  match thrown with
  | Some e => Rejected e
  | None => Resolved a
  end.

(** [set(value)], awaited, with listeners that may throw. *)
Definition set_throwing (b : Behaviour) (value : JsValue) : M (Outcome unit) :=
  o <- read_this ;;
  match valueForwarder o with
  | Some f =>
      r <- call_forwarder f value ;;
      match r with
      | Threw e => ret (Thrown e)
      | Returned _ | Promised (Fulfils _) =>
          thrown <- notifyOfExternalUpdate_throwing b value ;;
          ret (settled thrown tt)
      | Promised (Rejects e) => ret (Rejected e)
      | Promised NeverSettles => ret Pending
      end
  | None =>
      thrown <- notifyOfExternalUpdate_throwing b value ;;
      ret (settled thrown tt)
  end.

(** [get()], awaited, with listeners that may throw. *)
Definition get_throwing (b : Behaviour) : M (Outcome JsValue) :=
  o <- read_this ;;
  match valueRequestor o with
  | Some f =>
      r <- call_requestor f ;;
      match r with
      | Threw e => ret (Thrown e)
      | Returned newValue | Promised (Fulfils newValue) =>
          thrown <- notifyOfExternalUpdate_throwing b newValue ;;
          ret (settled thrown newValue)
      | Promised (Rejects e) => ret (Rejected e)
      | Promised NeverSettles => ret Pending
      end
  | None => ret (Resolved (lastValue o))
  end.

(** ** Vocabulary of the statements *)

(** The callback threw, or the promise it returned was rejected. *)
Definition raises {A : Type} (r : Reply A) : bool :=
  match r with
  | Threw _ | Promised (Rejects _) => true
  | Returned _ | Promised (Fulfils _) | Promised NeverSettles => false
  end.

(** The value a callback's result is fulfilled with, if it is. *)
Definition fulfilment {A : Type} (r : Reply A) : option A :=
  match r with
  | Returned a | Promised (Fulfils a) => Some a
  | Threw _ | Promised (Rejects _) | Promised NeverSettles => None
  end.

(** The candidate is not a sentinel and [!==] the stored value. *)
Definition differs (value last : JsValue) : bool :=
  negb (is_empty value) && strict_not_equals value last.

(** What one committed update appends to the log: the store, the event, and
    one call per observer. *)
Definition update_events (value : JsValue) (o : Value) : list Event :=
  EvStore value :: EvEmit "update" value
    :: map (fun l => EvListener l value) (observers o).

(** The object after [lastValue] has been replaced. *)
Definition stored (value : JsValue) (o : Value) : Value :=
  mkValue value (valueForwarder o) (valueRequestor o) (emitter o).

(** Callbacks that answer the same way on every call. *)
Definition always (r : Reply unit) : Forwarder := fun _ w => (r, w).
Definition answering (r : Reply JsValue) : Requestor := fun w => (r, w).

Definition start (o : Value) (w : World) : Config := mkConfig o w [].

(** The jobs of the queue as (call, value) pairs, oldest first. *)
Definition queued (st : Loop) : list (nat * JsValue) :=
  map (fun j => (job_id j, job_value j)) (jobs st).

(** The events of the update procedure, as opposed to callback calls. *)
Definition is_update_event (ev : Event) : bool :=
  match ev with
  | EvForward _ | EvRequest => false
  | EvStore _ | EvEmit _ _ | EvListener _ _ => true
  end.

(** The state agrees with the update procedure run on the values of
    [applied_order st], in that order, from [c0]; and the callbacks that
    became jobs are those that ran followed by those still queued. *)
Definition in_resolution_order (c0 : Config) (st : Loop) : Prop :=
  ready_order st = applied_order st ++ queued st
  /\ this (config st) = this (apply_updates (map snd (applied_order st)) c0)
  /\ filter is_update_event (log (config st))
     = filter is_update_event (log (apply_updates (map snd (applied_order st)) c0)).

(** No job is queued and no callback is attached under an id that a later
    call will get. *)
Definition idle (st : Loop) : Prop :=
  jobs st = [] /\ forall id, calls st <= id -> reaction_of id st = None.

(** The forwarder of [c], called with [value], throws or rejects. *)
Definition forwarder_raises (value : JsValue) (c : Config) : bool :=
  match valueForwarder (this c) with
  | Some f => raises (fst (f value (world c)))
  | None => false
  end.

(** There is no forwarder, or its result for [value] is fulfilled. *)
Definition forwarder_passes (value : JsValue) (c : Config) : bool :=
  match valueForwarder (this c) with
  | Some f =>
      match fulfilment (fst (f value (world c))) with
      | Some _ => true
      | None => false
      end
  | None => true
  end.

(** The requestor of [c] throws or rejects. *)
Definition requestor_raises (c : Config) : bool :=
  match valueRequestor (this c) with
  | Some f => raises (fst (f (world c)))
  | None => false
  end.

(** The value the requestor of [c] is fulfilled with, if there is one. *)
Definition pulled (c : Config) : option JsValue :=
  match valueRequestor (this c) with
  | Some f => fulfilment (fst (f (world c)))
  | None => None
  end.

(** Some observer of [o] throws when called with [value]. *)
Definition observer_throws (b : Behaviour) (value : JsValue) (o : Value) : bool :=
  existsb (fun l => match b l value with Some _ => true | None => false end)
          (observers o).

Definition is_listener_call (ev : Event) : bool :=
  match ev with EvListener _ _ => true | _ => false end.

Definition count_listener_calls (tr : list Event) : nat :=
  List.length (filter is_listener_call tr).

(** A listener that throws whatever it is called with. *)
Definition throwing_listener : Behaviour :=
  fun _ _ => Some (JsString "listener failed").

(** Listeners that all return. *)
Definition quiet : Behaviour := fun _ _ => None.

(** Three sentences of the specification, as they are worded, at a given
    state; each is compared with the code further down. *)


(** "calling [set(x)] twice in a row (no forwarder) emits exactly one change
    event (on the first call); the second call is a no-op" *)
Definition deduplication_as_stated (c : Config) (x : JsValue) : Prop :=
  valueForwarder (this c) = None ->
  let c1 := snd (set x c) in
  let c2 := snd (set x c1) in
  c2 = c1
  /\ count_emits (log c2)
     = count_emits (log c) + (if differs x (lastValue (this c)) then 1 else 0).


(** Two more, on failing calls, with listeners that may throw. *)

(** "[set(v)] fails if and only if a forwarder is configured and that
    forwarder raises; when [set(v)] fails, [lastValue] is unchanged and no
    change event is emitted" *)
Definition set_failure_as_stated (b : Behaviour) (c : Config) (value : JsValue)
    : Prop :=
  (failed (fst (set_throwing b value c)) = true <-> forwarder_raises value c = true)
  /\ (failed (fst (set_throwing b value c)) = true ->
        lastValue (this (snd (set_throwing b value c))) = lastValue (this c)
        /\ count_emits (log (snd (set_throwing b value c))) = count_emits (log c)).

(** "[get()] fails if and only if a requestor is configured and that
    requestor raises; when [get()] fails, [lastValue] is unchanged and no
    observer is notified" *)
Definition get_failure_as_stated (b : Behaviour) (c : Config) : Prop :=
  (failed (fst (get_throwing b c)) = true <-> requestor_raises c = true)
  /\ (failed (fst (get_throwing b c)) = true ->
        lastValue (this (snd (get_throwing b c))) = lastValue (this c)
        /\ count_listener_calls (log (snd (get_throwing b c)))
           = count_listener_calls (log c)).

(** ** Basic facts *)

Lemma update_guard_differs (value last : JsValue) :
  update_guard value last = differs value last.
Proof. destruct value; reflexivity. Qed.

Lemma count_emits_app (a b : list Event) :
  count_emits (a ++ b) = count_emits a + count_emits b.
Proof. unfold count_emits. rewrite filter_app, length_app. reflexivity. Qed.

Lemma count_emits_listener_calls (ls : list Listener) (v : JsValue) :
  count_emits (map (fun l => EvListener l v) ls) = 0.
Proof. induction ls as [|l ls IH]; [reflexivity|exact IH]. Qed.

Lemma count_emits_update_events (value : JsValue) (o : Value) :
  count_emits (update_events value o) = 1.
Proof.
  unfold update_events.
  change (S (count_emits (map (fun l => EvListener l value) (observers o))) = 1).
  now rewrite count_emits_listener_calls.
Qed.


Lemma notifyOfExternalUpdate_eq (value : JsValue) (c : Config) :
  notifyOfExternalUpdate value c =
  (tt, if differs value (lastValue (this c))
       then mkConfig (stored value (this c)) (world c)
                     (log c ++ update_events value (this c))
       else c).
Proof.
  unfold notifyOfExternalUpdate, bind, read_this.
  rewrite update_guard_differs.
  destruct (differs value (lastValue (this c))); [|reflexivity].
  unfold assign_lastValue, emit, bind, read_this, record, EventEmitter.emit; simpl.
  rewrite <- app_assoc. reflexivity.
Qed.

Lemma set_eq (value : JsValue) (c : Config) :
  set value c =
  match valueForwarder (this c) with
  | None => (Resolved tt, snd (notifyOfExternalUpdate value c))
  | Some f =>
      let c1 := mkConfig (this c) (snd (f value (world c))) (log c ++ [EvForward value]) in
      match fst (f value (world c)) with
      | Threw e => (Thrown e, c1)
      | Promised (Rejects e) => (Rejected e, c1)
      | Promised NeverSettles => (Pending, c1)
      | Returned _ | Promised (Fulfils _) =>
          (Resolved tt, snd (notifyOfExternalUpdate value c1))
      end
  end.
Proof.
  unfold set, bind, read_this, call_forwarder, ret.
  destruct (valueForwarder (this c)) as [f|].
  - destruct (f value (world c)) as [r w]; simpl.
    destruct r as [u|e|[u|e|]]; try reflexivity;
      destruct (notifyOfExternalUpdate value _); reflexivity.
  - destruct (notifyOfExternalUpdate value c); reflexivity.
Qed.

Lemma get_eq (c : Config) :
  get c =
  match valueRequestor (this c) with
  | None => (Resolved (lastValue (this c)), c)
  | Some f =>
      let c1 := mkConfig (this c) (snd (f (world c))) (log c ++ [EvRequest]) in
      match fst (f (world c)) with
      | Threw e => (Thrown e, c1)
      | Promised (Rejects e) => (Rejected e, c1)
      | Promised NeverSettles => (Pending, c1)
      | Returned newValue | Promised (Fulfils newValue) =>
          (Resolved newValue, snd (notifyOfExternalUpdate newValue c1))
      end
  end.
Proof.
  unfold get, bind, read_this, call_requestor, ret.
  destruct (valueRequestor (this c)) as [f|]; [|reflexivity].
  destruct (f (world c)) as [r w]; simpl.
  destruct r as [u|e|[u|e|]]; try reflexivity;
    destruct (notifyOfExternalUpdate u _); reflexivity.
Qed.


Lemma SFeqb_refl (f : spec_float) : f <> S754_nan -> SFeqb f f = true.
Proof.
  intros Hf. unfold SFeqb.
  destruct f as [[|]|[|]| |[|] m e]; cbn; try reflexivity; try congruence.
  all: now rewrite Z.compare_refl, Pos.compare_cont_refl.
Qed.

Lemma strict_equals_refl (x : JsValue) : x <> NaN -> strict_equals x x = true.
Proof.
  intros Hx. destruct x; cbn; try reflexivity.
  - apply Bool.eqb_reflx.
  - apply SFeqb_refl. intros ->. now apply Hx.
  - apply Z.eqb_refl.
  - apply String.eqb_refl.
  - apply Pos.eqb_refl.
  - apply Pos.eqb_refl.
  - apply Pos.eqb_refl.
Qed.

Lemma differs_self (x : JsValue) : x <> NaN -> differs x x = false.
Proof.
  intros Hx. unfold differs, strict_not_equals.
  rewrite (strict_equals_refl x Hx). apply andb_false_r.
Qed.

Lemma differs_nonempty (value last : JsValue) :
  differs value last = true -> is_empty value = false.
Proof.
  unfold differs. intros H. apply andb_prop in H as [H _].
  now apply negb_true_iff in H.
Qed.

Lemma notify_this (value : JsValue) (c : Config) :
  this (snd (notifyOfExternalUpdate value c)) =
  if differs value (lastValue (this c)) then stored value (this c) else this c.
Proof.
  rewrite notifyOfExternalUpdate_eq. cbn [snd].
  now destruct (differs value (lastValue (this c))).
Qed.

Lemma notify_log (value : JsValue) (c : Config) :
  log (snd (notifyOfExternalUpdate value c)) =
  log c ++ (if differs value (lastValue (this c))
            then update_events value (this c) else []).
Proof.
  rewrite notifyOfExternalUpdate_eq. cbn [snd].
  destruct (differs value (lastValue (this c))); [reflexivity|].
  now rewrite app_nil_r.
Qed.

Lemma notify_keeps_nonempty (value : JsValue) (c : Config) :
  is_empty (lastValue (this c)) = false ->
  is_empty (lastValue (this (snd (notifyOfExternalUpdate value c)))) = false.
Proof.
  intros H. rewrite notify_this.
  destruct (differs value (lastValue (this c))) eqn:D; [|exact H].
  cbn [stored lastValue]. now apply differs_nonempty in D.
Qed.

Lemma set_this (value : JsValue) (c : Config) :
  this (snd (set value c)) = this c
  \/ this (snd (set value c)) = this (snd (notifyOfExternalUpdate value c)).
Proof.
  rewrite set_eq. destruct (valueForwarder (this c)) as [f|]; [|now right].
  cbv zeta. destruct (fst (f value (world c))) as [u|e|[u|e|]]; cbn [snd this];
    try (now left); right; now rewrite !notify_this.
Qed.

Lemma get_this (c : Config) :
  this (snd (get c)) = this c
  \/ exists v, this (snd (get c)) = this (snd (notifyOfExternalUpdate v c)).
Proof.
  rewrite get_eq. destruct (valueRequestor (this c)) as [f|]; [|now left].
  cbv zeta. destruct (fst (f (world c))) as [u|e|[u|e|]]; cbn [snd this];
    try (now left); right; exists u; now rewrite !notify_this.
Qed.

Lemma run_op_keeps_nonempty (op : Op) (c : Config) :
  is_empty (lastValue (this c)) = false ->
  is_empty (lastValue (this (run_op op c))) = false.
Proof.
  intros H. destruct op as [value| |value|name l]; cbn [run_op].
  - destruct (set_this value c) as [-> | ->]; [exact H|].
    now apply notify_keeps_nonempty.
  - destruct (get_this c) as [-> | [v ->]]; [exact H|].
    now apply notify_keeps_nonempty.
  - now apply notify_keeps_nonempty.
  - exact H.
Qed.

Lemma run_ops_keeps_nonempty (ops : list Op) (c : Config) :
  is_empty (lastValue (this c)) = false ->
  is_empty (lastValue (this (run_ops ops c))) = false.
Proof.
  revert c. induction ops as [|op ops IH]; intros c H; [exact H|].
  cbn. apply IH. now apply run_op_keeps_nonempty.
Qed.

(** *** The job queue *)

Lemma call_forwarder_eq (f : Forwarder) (value : JsValue) (c : Config) :
  call_forwarder f value c =
  (fst (f value (world c)),
   mkConfig (this c) (snd (f value (world c))) (log c ++ [EvForward value])).
Proof. unfold call_forwarder. now destruct (f value (world c)). Qed.

Lemma call_requestor_eq (f : Requestor) (c : Config) :
  call_requestor f c =
  (fst (f (world c)),
   mkConfig (this c) (snd (f (world c))) (log c ++ [EvRequest])).
Proof. unfold call_requestor. now destruct (f (world c)). Qed.

Lemma filter_update_events (value : JsValue) (o : Value) :
  filter is_update_event (update_events value o) = update_events value o.
Proof.
  unfold update_events. cbn. do 2 f_equal.
  induction (observers o) as [|l ls IH]; [reflexivity|]. cbn. now rewrite IH.
Qed.

Lemma apply_updates_snoc (vs : list JsValue) (v : JsValue) (c : Config) :
  apply_updates (vs ++ [v]) c = snd (notifyOfExternalUpdate v (apply_updates vs c)).
Proof. unfold apply_updates. now rewrite fold_left_app. Qed.

(** Running the update procedure on two states that hold the same object
    and the same update events leaves them so. *)
Lemma notify_agree (v : JsValue) (c d : Config) :
  this c = this d ->
  filter is_update_event (log c) = filter is_update_event (log d) ->
  this (snd (notifyOfExternalUpdate v c)) = this (snd (notifyOfExternalUpdate v d))
  /\ filter is_update_event (log (snd (notifyOfExternalUpdate v c)))
     = filter is_update_event (log (snd (notifyOfExternalUpdate v d))).
Proof.
  intros Ht Hl. rewrite !notify_this, !notify_log, !filter_app, Ht, Hl.
  split; reflexivity.
Qed.

Lemma boot_in_resolution_order (c0 : Config) : in_resolution_order c0 (boot c0).
Proof. repeat split. Qed.

Lemma enqueue_in_resolution_order (c0 : Config) (j : Job) (st : Loop) :
  in_resolution_order c0 st -> in_resolution_order c0 (enqueue j st).
Proof.
  intros (Hq & Ht & Hl). unfold in_resolution_order, enqueue, queued in *.
  cbn [ready_order applied_order jobs config].
  rewrite map_app, app_assoc, Hq. repeat split; assumption.
Qed.

Lemma called_in_resolution_order (c0 : Config) (st : Loop) (w : World) (ev : Event) :
  is_update_event ev = false ->
  in_resolution_order c0 st ->
  in_resolution_order c0
    (with_config (mkConfig (this (config st)) w (log (config st) ++ [ev])) st).
Proof.
  intros Hev (Hq & Ht & Hl). unfold in_resolution_order, with_config, queued in *.
  cbn [ready_order applied_order jobs config this log].
  repeat split; try assumption.
  rewrite filter_app. cbn. rewrite Hev, app_nil_r. exact Hl.
Qed.

Lemma next_call_in_resolution_order (c0 : Config) (st : Loop) :
  in_resolution_order c0 st -> in_resolution_order c0 (next_call st).
Proof. intros H. exact H. Qed.

Lemma finish_in_resolution_order (c0 : Config) (id : nat) (o : Outcome JsValue)
    (st : Loop) :
  in_resolution_order c0 st -> in_resolution_order c0 (finish id o st).
Proof. intros H. exact H. Qed.

Lemma attach_in_resolution_order (c0 : Config) (id : nat) (r : Reaction) (st : Loop) :
  in_resolution_order c0 st -> in_resolution_order c0 (attach id r st).
Proof. intros H. exact H. Qed.

Lemma detach_in_resolution_order (c0 : Config) (id : nat) (st : Loop) :
  in_resolution_order c0 st -> in_resolution_order c0 (detach id st).
Proof. intros H. exact H. Qed.

Lemma step_in_resolution_order (c0 : Config) (a : Action) (st : Loop) :
  in_resolution_order c0 st -> in_resolution_order c0 (step a st).
Proof.
  intros H. destruct a as [value| |id|]; cbn [step].
  - unfold call_set. apply next_call_in_resolution_order.
    destruct (valueForwarder (this (config st))) as [f|].
    + rewrite call_forwarder_eq.
      pose proof (called_in_resolution_order c0 st (snd (f value (world (config st))))
                    (EvForward value) eq_refl H) as H1.
      destruct (fst (f value (world (config st)))) as [u|e|p].
      * exact (enqueue_in_resolution_order c0 (ThenSet (calls st) value) _ H1).
      * exact H1.
      * exact H1.
    + exact (enqueue_in_resolution_order c0 (ThenSet (calls st) value) _ H).
  - unfold call_get. apply next_call_in_resolution_order.
    destruct (valueRequestor (this (config st))) as [f|].
    + rewrite call_requestor_eq.
      pose proof (called_in_resolution_order c0 st (snd (f (world (config st))))
                    EvRequest eq_refl H) as H1.
      destruct (fst (f (world (config st)))) as [u|e|p].
      * exact (enqueue_in_resolution_order c0 (ThenGet (calls st) u) _ H1).
      * exact H1.
      * exact H1.
    + exact H.
  - unfold settle.
    pose proof (detach_in_resolution_order c0 id st H) as Hd.
    destruct (reaction_of id st) as [[value [u|e|]|[u|e|]]|]; try exact H.
    + exact (enqueue_in_resolution_order c0 (ThenSet id value) _ Hd).
    + exact (enqueue_in_resolution_order c0 (ThenGet id u) _ Hd).
  - unfold run_job. destruct (jobs st) as [|j rest] eqn:J; [exact H|].
    destruct H as (Hq & Ht & Hl). unfold in_resolution_order, queued in *.
    cbn [ready_order applied_order jobs config]. rewrite J in Hq. cbn [map] in Hq.
    rewrite map_app. cbn [map snd]. rewrite apply_updates_snoc.
    split; [now rewrite <- app_assoc|].
    now apply notify_agree.
Qed.

Lemma run_in_resolution_order (c0 : Config) (acts : list Action) (st : Loop) :
  in_resolution_order c0 st -> in_resolution_order c0 (run acts st).
Proof.
  revert st. induction acts as [|a acts IH]; intros st H; [exact H|].
  cbn. apply IH. now apply step_in_resolution_order.
Qed.

Lemma apply_updates_keeps_nonempty (vs : list JsValue) (c : Config) :
  is_empty (lastValue (this c)) = false ->
  is_empty (lastValue (this (apply_updates vs c))) = false.
Proof.
  revert c. induction vs as [|v vs IH]; intros c H; [exact H|].
  cbn. apply IH. now apply notify_keeps_nonempty.
Qed.

Lemma call_set_eq (value : JsValue) (st : Loop) :
  call_set value st =
  match valueForwarder (this (config st)) with
  | None => next_call (enqueue (ThenSet (calls st) value) st)
  | Some f =>
      let c1 := mkConfig (this (config st)) (snd (f value (world (config st))))
                         (log (config st) ++ [EvForward value]) in
      match fst (f value (world (config st))) with
      | Threw e => next_call (finish (calls st) (Thrown e) (with_config c1 st))
      | Returned _ => next_call (enqueue (ThenSet (calls st) value) (with_config c1 st))
      | Promised p => next_call (attach (calls st) (OnSet value p) (with_config c1 st))
      end
  end.
Proof.
  unfold call_set. destruct (valueForwarder (this (config st))) as [f|]; [|reflexivity].
  rewrite call_forwarder_eq. cbv zeta.
  now destruct (fst (f value (world (config st)))).
Qed.

Lemma find_app_none {A : Type} (p : A -> bool) (l l' : list A) :
  find p l = None -> find p (l ++ l') = find p l'.
Proof.
  induction l as [|x l IH]; [reflexivity|]. cbn.
  destruct (p x); [discriminate|exact IH].
Qed.

Lemma find_filter_other {A : Type} (p q : A -> bool) (l : list A) :
  (forall x, p x = true -> q x = true) ->
  find p (filter q l) = find p l.
Proof.
  intros Hpq. induction l as [|x l IH]; [reflexivity|]. cbn.
  destruct (q x) eqn:Q; cbn.
  - now rewrite IH.
  - destruct (p x) eqn:P; [|exact IH]. apply Hpq in P. congruence.
Qed.

Lemma reaction_of_attach (id id' : nat) (r : Reaction) (st : Loop) :
  reaction_of id' st = None ->
  reaction_of id' (attach id r st) = if Nat.eqb id id' then Some r else None.
Proof.
  unfold reaction_of, attach. cbn [reactions]. intros H.
  destruct (find (fun r0 => Nat.eqb (fst r0) id') (reactions st)) eqn:F; [discriminate|].
  rewrite (find_app_none _ _ _ F). cbn. now destruct (Nat.eqb id id').
Qed.

Lemma reaction_of_detach_other (id id' : nat) (st : Loop) :
  id <> id' -> reaction_of id' (detach id st) = reaction_of id' st.
Proof.
  intros Hne. unfold reaction_of, detach. cbn [reactions].
  rewrite find_filter_other; [reflexivity|].
  intros x Hx. apply Nat.eqb_eq in Hx. apply negb_true_iff, Nat.eqb_neq. congruence.
Qed.

(** One [set] call made from an idle loop and run to its end does what the
    awaited [set] does, and leaves the loop idle. *)
Lemma awaited_set (value : JsValue) (st : Loop) :
  idle st ->
  let st' := run [CallSet value; Settle (calls st); RunJob] st in
  config st' = snd (set value (config st))
  /\ calls st' = S (calls st)
  /\ idle st'.
Proof.
  intros [Hj Hr]. cbv zeta. unfold run. cbn [fold_left step].
  assert (Hnone : reaction_of (calls st) st = None) by (apply Hr; lia).
  assert (Hlater : forall id, S (calls st) <= id -> reaction_of id st = None)
    by (intros id Hid; apply Hr; lia).
  rewrite call_set_eq, set_eq.
  destruct (valueForwarder (this (config st))) as [f|].
  - cbv zeta.
    set (c1 := mkConfig (this (config st)) (snd (f value (world (config st))))
                        (log (config st) ++ [EvForward value])).
    destruct (fst (f value (world (config st)))) as [u|e|[u|e|]].
    + unfold settle.
      change (reaction_of (calls st) (next_call (enqueue (ThenSet (calls st) value)
                (with_config c1 st)))) with (reaction_of (calls st) st).
      rewrite Hnone. unfold run_job. cbn [jobs next_call enqueue with_config].
      rewrite Hj. cbn. repeat split. exact Hlater.
    + unfold settle.
      change (reaction_of (calls st) (next_call (finish (calls st) (Thrown e)
                (with_config c1 st)))) with (reaction_of (calls st) st).
      rewrite Hnone. unfold run_job. cbn [jobs next_call finish with_config].
      rewrite Hj. cbn. repeat split; [exact Hj | exact Hlater].
    + unfold settle.
      change (reaction_of (calls st) (next_call (attach (calls st)
                (OnSet value (Fulfils u)) (with_config c1 st))))
        with (reaction_of (calls st) (attach (calls st) (OnSet value (Fulfils u)) st)).
      rewrite (reaction_of_attach _ _ _ _ Hnone), Nat.eqb_refl.
      unfold run_job. cbn [jobs next_call enqueue detach attach with_config].
      rewrite Hj. cbn. repeat split.
      intros id Hid. cbn in Hid.
      change (reaction_of id (detach (calls st)
                (attach (calls st) (OnSet value (Fulfils u)) st)) = None).
      rewrite reaction_of_detach_other by lia.
      rewrite (reaction_of_attach _ _ _ _ (Hlater id Hid)).
      destruct (Nat.eqb_spec (calls st) id); [lia|reflexivity].
    + unfold settle.
      change (reaction_of (calls st) (next_call (attach (calls st)
                (OnSet value (Rejects e)) (with_config c1 st))))
        with (reaction_of (calls st) (attach (calls st) (OnSet value (Rejects e)) st)).
      rewrite (reaction_of_attach _ _ _ _ Hnone), Nat.eqb_refl.
      unfold run_job. cbn [jobs next_call finish detach attach with_config].
      rewrite Hj. cbn. repeat split; [exact Hj|].
      intros id Hid. cbn in Hid.
      change (reaction_of id (detach (calls st)
                (attach (calls st) (OnSet value (Rejects e)) st)) = None).
      rewrite reaction_of_detach_other by lia.
      rewrite (reaction_of_attach _ _ _ _ (Hlater id Hid)).
      destruct (Nat.eqb_spec (calls st) id); [lia|reflexivity].
    + unfold settle.
      change (reaction_of (calls st) (next_call (attach (calls st)
                (OnSet value NeverSettles) (with_config c1 st))))
        with (reaction_of (calls st) (attach (calls st) (OnSet value NeverSettles) st)).
      rewrite (reaction_of_attach _ _ _ _ Hnone), Nat.eqb_refl.
      unfold run_job. cbn [jobs next_call attach with_config].
      rewrite Hj. cbn. repeat split; [exact Hj|].
      intros id Hid. cbn in Hid.
      change (reaction_of id (attach (calls st) (OnSet value NeverSettles) st) = None).
      rewrite (reaction_of_attach _ _ _ _ (Hlater id Hid)).
      destruct (Nat.eqb_spec (calls st) id); [lia|reflexivity].
  - unfold settle.
    change (reaction_of (calls st) (next_call (enqueue (ThenSet (calls st) value) st)))
      with (reaction_of (calls st) st).
    rewrite Hnone. unfold run_job. cbn [jobs next_call enqueue].
    rewrite Hj. cbn. repeat split. exact Hlater.
Qed.

Lemma boot_idle (c0 : Config) : idle (boot c0).
Proof. split; reflexivity. Qed.


(** *** Listeners that throw *)

Lemma call_listeners_thrown (b : Behaviour) (ls : list Listener) (v : JsValue) :
  match snd (call_listeners b ls v) with Some _ => true | None => false end
  = existsb (fun l => match b l v with Some _ => true | None => false end) ls.
Proof.
  induction ls as [|l ls IH]; [reflexivity|]. cbn.
  destruct (b l v); [reflexivity|].
  destruct (call_listeners b ls v) as [evs thrown]. exact IH.
Qed.

Lemma call_listeners_quiet (b : Behaviour) (ls : list Listener) (v : JsValue) :
  existsb (fun l => match b l v with Some _ => true | None => false end) ls = false ->
  call_listeners b ls v = (map (fun l => EvListener l v) ls, None).
Proof.
  induction ls as [|l ls IH]; [reflexivity|]. cbn.
  destruct (b l v); [discriminate|]. cbn. intros H. now rewrite (IH H).
Qed.

Lemma notifyOfExternalUpdate_throwing_eq (b : Behaviour) (value : JsValue) (c : Config) :
  notifyOfExternalUpdate_throwing b value c =
  if differs value (lastValue (this c))
  then (snd (call_listeners b (observers (this c)) value),
        mkConfig (stored value (this c)) (world c)
                 (log c ++ EvStore value :: EvEmit "update" value
                    :: fst (call_listeners b (observers (this c)) value)))
  else (None, c).
Proof.
  unfold notifyOfExternalUpdate_throwing, bind, read_this.
  rewrite update_guard_differs.
  destruct (differs value (lastValue (this c))); [|reflexivity].
  unfold assign_lastValue, emit_throwing, bind, read_this, record, ret, observers.
  cbn [this emitter world log].
  destruct (call_listeners b (EventEmitter.listeners "update" (emitter (this c))) value)
    as [evs thrown].
  cbn [fst snd this world log]. unfold stored. rewrite <- app_assoc. reflexivity.
Qed.

Lemma set_throwing_eq (b : Behaviour) (value : JsValue) (c : Config) :
  set_throwing b value c =
  match valueForwarder (this c) with
  | None =>
      (settled (fst (notifyOfExternalUpdate_throwing b value c)) tt,
       snd (notifyOfExternalUpdate_throwing b value c))
  | Some f =>
      let c1 := mkConfig (this c) (snd (f value (world c))) (log c ++ [EvForward value]) in
      match fst (f value (world c)) with
      | Threw e => (Thrown e, c1)
      | Promised (Rejects e) => (Rejected e, c1)
      | Promised NeverSettles => (Pending, c1)
      | Returned _ | Promised (Fulfils _) =>
          (settled (fst (notifyOfExternalUpdate_throwing b value c1)) tt,
           snd (notifyOfExternalUpdate_throwing b value c1))
      end
  end.
Proof.
  unfold set_throwing, bind, read_this, call_forwarder, ret.
  destruct (valueForwarder (this c)) as [f|].
  - destruct (f value (world c)) as [r w]; simpl.
    destruct r as [u|e|[u|e|]]; try reflexivity;
      destruct (notifyOfExternalUpdate_throwing b value _); reflexivity.
  - destruct (notifyOfExternalUpdate_throwing b value c); reflexivity.
Qed.

Lemma get_throwing_eq (b : Behaviour) (c : Config) :
  get_throwing b c =
  match valueRequestor (this c) with
  | None => (Resolved (lastValue (this c)), c)
  | Some f =>
      let c1 := mkConfig (this c) (snd (f (world c))) (log c ++ [EvRequest]) in
      match fst (f (world c)) with
      | Threw e => (Thrown e, c1)
      | Promised (Rejects e) => (Rejected e, c1)
      | Promised NeverSettles => (Pending, c1)
      | Returned newValue | Promised (Fulfils newValue) =>
          (settled (fst (notifyOfExternalUpdate_throwing b newValue c1)) newValue,
           snd (notifyOfExternalUpdate_throwing b newValue c1))
      end
  end.
Proof.
  unfold get_throwing, bind, read_this, call_requestor, ret.
  destruct (valueRequestor (this c)) as [f|]; [|reflexivity].
  destruct (f (world c)) as [r w]; simpl.
  destruct r as [u|e|[u|e|]]; try reflexivity;
    destruct (notifyOfExternalUpdate_throwing b u _); reflexivity.
Qed.

(** The update procedure throws exactly when it commits and an observer
    throws. *)
Lemma notify_throwing_failed (b : Behaviour) (value : JsValue) (c : Config) :
  failed (settled (fst (notifyOfExternalUpdate_throwing b value c)) tt)
  = differs value (lastValue (this c)) && observer_throws b value (this c).
Proof.
  rewrite notifyOfExternalUpdate_throwing_eq. unfold observer_throws.
  destruct (differs value (lastValue (this c))); [|reflexivity].
  cbn [fst andb]. rewrite <- call_listeners_thrown.
  now destruct (snd (call_listeners b (observers (this c)) value)).
Qed.

(** With observers that return, the calls are the ones of the model whose
    listeners never throw. *)
Lemma notify_throwing_quiet (b : Behaviour) (value : JsValue) (c : Config) :
  observer_throws b value (this c) = false ->
  notifyOfExternalUpdate_throwing b value c
  = (None, snd (notifyOfExternalUpdate value c)).
Proof.
  intros H. rewrite notifyOfExternalUpdate_throwing_eq, notifyOfExternalUpdate_eq.
  cbn [snd]. destruct (differs value (lastValue (this c))); [|reflexivity].
  unfold observer_throws in H. rewrite (call_listeners_quiet _ _ _ H). reflexivity.
Qed.

Lemma set_throwing_quiet (b : Behaviour) (value : JsValue) (c : Config) :
  observer_throws b value (this c) = false ->
  set_throwing b value c = set value c.
Proof.
  intros H. rewrite set_throwing_eq, set_eq.
  destruct (valueForwarder (this c)) as [f|]; cbv zeta.
  - destruct (fst (f value (world c))) as [u|e|[u|e|]]; try reflexivity;
      now rewrite notify_throwing_quiet.
  - now rewrite notify_throwing_quiet.
Qed.

Lemma get_throwing_quiet (b : Behaviour) (c : Config) :
  (forall y, observer_throws b y (this c) = false) ->
  get_throwing b c = get c.
Proof.
  intros H. rewrite get_throwing_eq, get_eq.
  destruct (valueRequestor (this c)) as [f|]; [|reflexivity]. cbv zeta.
  destruct (fst (f (world c))) as [u|e|[u|e|]]; try reflexivity;
    now rewrite notify_throwing_quiet by apply H.
Qed.

Lemma set_throwing_failed (b : Behaviour) (value : JsValue) (c : Config) :
  failed (fst (set_throwing b value c))
  = forwarder_raises value c
    || (forwarder_passes value c
        && (differs value (lastValue (this c)) && observer_throws b value (this c))).
Proof.
  rewrite set_throwing_eq. unfold forwarder_raises, forwarder_passes.
  destruct (valueForwarder (this c)) as [f|]; cbv zeta.
  - destruct (fst (f value (world c))) as [u|e|[u|e|]]; cbn [fst raises fulfilment];
      try reflexivity; now rewrite notify_throwing_failed.
  - cbn [fst]. now rewrite notify_throwing_failed.
Qed.

Lemma get_throwing_failed (b : Behaviour) (c : Config) :
  failed (fst (get_throwing b c))
  = requestor_raises c
    || match pulled c with
       | Some y => differs y (lastValue (this c)) && observer_throws b y (this c)
       | None => false
       end.
Proof.
  rewrite get_throwing_eq. unfold requestor_raises, pulled.
  destruct (valueRequestor (this c)) as [f|]; [|reflexivity]. cbv zeta.
  assert (Hs : forall thrown (v : JsValue),
            failed (settled thrown v) = failed (settled thrown tt)).
  { intros [e|] v; reflexivity. }
  destruct (fst (f (world c))) as [u|e|[u|e|]]; cbn [fst raises fulfilment];
    try reflexivity; now rewrite Hs, notify_throwing_failed.
Qed.

(** C2, amended.  With listeners that may throw, [set(value)] fails exactly
    when the forwarder throws or rejects, or when the forwarder (if there is
    one) is fulfilled, [value] is neither undefined nor null and
    [!== lastValue], and an observer throws on being notified.  With no
    forwarder and no throwing observer the call is fulfilled.  When the
    forwarder raises, the object is as it was: the log gains the forwarder
    call and nothing else, so nothing is stored or emitted. *)
Theorem set_fails_iff_forwarder_or_listener_raises
    (b : Behaviour) (value : JsValue) (c : Config) :
  let o := fst (set_throwing b value c) in
  let c' := snd (set_throwing b value c) in
  (failed o = true <->
     forwarder_raises value c = true
     \/ (forwarder_passes value c = true
         /\ differs value (lastValue (this c)) = true
         /\ observer_throws b value (this c) = true))
  /\ (valueForwarder (this c) = None ->
      observer_throws b value (this c) = false -> o = Resolved tt)
  /\ (forwarder_raises value c = true ->
        this c' = this c
        /\ log c' = log c ++ [EvForward value]
        /\ count_emits (log c') = count_emits (log c)).
Proof.
  cbv zeta. split; [|split].
  - rewrite set_throwing_failed, orb_true_iff, !andb_true_iff. reflexivity.
  - intros Hf Hq. rewrite (set_throwing_quiet b value c Hq), set_eq, Hf. reflexivity.
  - unfold forwarder_raises. rewrite set_throwing_eq.
    destruct (valueForwarder (this c)) as [f|]; [|discriminate]. cbv zeta.
    destruct (fst (f value (world c))) as [u|e|[u|e|]]; cbn [raises snd this log];
      try discriminate; intros _; repeat split;
      rewrite count_emits_app; cbn; lia.
Qed.

(** C5.  With no requestor, [get()] is fulfilled with the stored
    [lastValue] and leaves the whole state (fields, listener table, world
    and log) as it was. *)
Theorem get_without_requestor_is_pure_read (c : Config) :
  valueRequestor (this c) = None ->
  get c = (Resolved (lastValue (this c)), c).
Proof. intros H. rewrite get_eq, H. reflexivity. Qed.

(** C7, amended.  With listeners that may throw, [get()] fails exactly
    when the requestor throws or rejects, or when the requestor is fulfilled
    with a value that is neither undefined nor null and [!== lastValue] and
    an observer throws on being notified of it.  When the requestor raises,
    the object is as it was: the log gains the requestor call only, and no
    listener is called. *)
Theorem get_fails_iff_requestor_or_listener_raises (b : Behaviour) (c : Config) :
  let o := fst (get_throwing b c) in
  let c' := snd (get_throwing b c) in
  (failed o = true <->
     requestor_raises c = true
     \/ exists y, pulled c = Some y
                  /\ differs y (lastValue (this c)) = true
                  /\ observer_throws b y (this c) = true)
  /\ (requestor_raises c = true ->
        this c' = this c
        /\ log c' = log c ++ [EvRequest]
        /\ count_listener_calls (log c') = count_listener_calls (log c)).
Proof.
  cbv zeta. split.
  - rewrite get_throwing_failed, orb_true_iff.
    destruct (pulled c) as [y|].
    + rewrite andb_true_iff. split.
      * intros [H|H]; [now left|]. right. now exists y.
      * intros [H|(y' & Hy & H)]; [now left|]. right. now injection Hy as <-.
    + split.
      * intros [H|H]; [now left|discriminate].
      * intros [H|(y' & Hy & _)]; [now left|discriminate].
  - unfold requestor_raises. rewrite get_throwing_eq.
    destruct (valueRequestor (this c)) as [f|]; [|discriminate]. cbv zeta.
    destruct (fst (f (world c))) as [u|e|[u|e|]]; cbn [raises snd this log];
      try discriminate; intros _; repeat split;
      unfold count_listener_calls; rewrite filter_app, length_app; cbn; lia.
Qed.

(** C8.  With a forwarder configured and [z !== lastValue], [set(z)] first
    calls the forwarder with [z], once, while [lastValue] still holds the
    prior value.  The store and the notification follow that call in the
    log, and they happen only when the forwarder's result is fulfilled;
    otherwise the object is left as it was. *)
Theorem set_forwards_then_commits (z : JsValue) (c : Config) (f : Forwarder) :
  valueForwarder (this c) = Some f ->
  strict_not_equals z (lastValue (this c)) = true ->
  let c' := snd (set z c) in
  exists rest,
    log c' = log c ++ EvForward z :: rest
    /\ existsb is_forward rest = false
    /\ match fulfilment (fst (f z (world c))) with
       | Some _ =>
           if is_empty z
           then rest = [] /\ this c' = this c
           else rest = update_events z (this c) /\ this c' = stored z (this c)
       | None => rest = [] /\ this c' = this c
       end.
Proof.
  intros Hf Hz. cbv zeta. rewrite set_eq, Hf. cbv zeta.
  assert (Hd : differs z (lastValue (this c)) = negb (is_empty z)).
  { unfold differs. rewrite Hz. apply andb_true_r. }
  assert (Hnf : existsb is_forward (update_events z (this c)) = false).
  { unfold update_events. cbn. induction (observers (this c)); [reflexivity|assumption]. }
  destruct (fst (f z (world c))) as [u|e|[u|e|]]; cbn [fst snd fulfilment].
  1, 3: rewrite notify_this, notify_log; cbn [this log]; rewrite Hd;
        destruct (is_empty z); cbn [negb];
        [ exists []; rewrite app_nil_r; repeat split
        | exists (update_events z (this c)); rewrite <- app_assoc; repeat split; exact Hnf ].
  all: exists []; repeat split.
Qed.


(** C4, amended.  With no forwarder and [x] any value other than NaN,
    [set(x)] twice in a row: both calls are fulfilled, the second changes
    nothing and emits nothing, and the two calls together emit one
    ['update'] event when [x] is neither undefined nor null and
    [!== lastValue] before the first call, and none otherwise. *)
Theorem set_twice_deduplicates (c : Config) (x : JsValue) :
  valueForwarder (this c) = None ->
  x <> NaN ->
  let c1 := snd (set x c) in
  let c2 := snd (set x c1) in
  fst (set x c) = Resolved tt
  /\ fst (set x c1) = Resolved tt
  /\ c2 = c1
  /\ count_emits (log c2)
     = count_emits (log c) + (if differs x (lastValue (this c)) then 1 else 0)
  /\ (if differs x (lastValue (this c))
      then log c1 = log c ++ update_events x (this c)
      else c1 = c).
Proof.
  intros Hf Hx. cbv zeta.
  assert (H1 : set x c = (Resolved tt, snd (notifyOfExternalUpdate x c))).
  { now rewrite set_eq, Hf. }
  rewrite H1. cbn [fst snd].
  set (c1 := snd (notifyOfExternalUpdate x c)).
  assert (Hf1 : valueForwarder (this c1) = None).
  { unfold c1. rewrite notify_this.
    now destruct (differs x (lastValue (this c))). }
  assert (H2 : set x c1 = (Resolved tt, c1)).
  { rewrite set_eq, Hf1. f_equal.
    rewrite notifyOfExternalUpdate_eq. cbn [snd].
    replace (differs x (lastValue (this c1))) with false; [reflexivity|].
    unfold c1. rewrite notify_this.
    destruct (differs x (lastValue (this c))) eqn:D; cbn [lastValue stored].
    - symmetry. now apply differs_self.
    - now rewrite D. }
  rewrite H2. cbn [fst snd].
  repeat split.
  - unfold c1. rewrite notify_log.
    destruct (differs x (lastValue (this c))).
    + rewrite count_emits_app, count_emits_update_events. reflexivity.
    + rewrite app_nil_r. lia.
  - unfold c1. rewrite notifyOfExternalUpdate_eq. cbn [snd].
    now destruct (differs x (lastValue (this c))).
Qed.


(** C10.  A value constructed with an initial value that is neither null
    nor undefined never holds an empty [lastValue]: not after any sequence
    of awaited [set], [get], [notifyOfExternalUpdate] and [on] calls, and
    not at any point of any schedule of overlapping [set] and [get] calls,
    whatever the forwarder and requestor answer. *)
Theorem lastValue_never_empty (initialValue : JsValue)
    (fwd : option Forwarder) (req : option Requestor) (w : World) :
  is_empty initialValue = false ->
  let c0 := start (constructor initialValue fwd req) w in
  (forall ops, is_empty (lastValue (this (run_ops ops c0))) = false)
  /\ (forall acts, is_empty (lastValue (this (config (run acts (boot c0))))) = false).
Proof.
  intros H c0. split.
  - intros ops. now apply run_ops_keeps_nonempty.
  - intros acts.
    destruct (run_in_resolution_order c0 acts (boot c0) (boot_in_resolution_order c0))
      as (_ & -> & _).
    now apply apply_updates_keeps_nonempty.
Qed.

(** C9.  Two [set] calls, each run to its end before the next is made, do
    what two awaited calls do one after the other.  Two [set] calls whose
    forwarder promises are both pending apply nothing until a promise is
    fulfilled; then the update procedure runs for each call in the order
    the promises are fulfilled, each against the [lastValue] left by the
    one before, so the later one decides the final [lastValue] and each
    emits when its value differs at that moment.  For any number of calls
    and any schedule, the updates that have run are, in order, the first
    of the callbacks that became ready. *)
Theorem set_calls_apply_in_resolution_order (c0 : Config) (a b : JsValue) :
  config (run [CallSet a; Settle 0; RunJob; CallSet b; Settle 1; RunJob] (boot c0))
    = snd (set b (snd (set a c0)))
  /\ (forall f,
        valueForwarder (this c0) = Some f ->
        fst (f a (world c0)) = Promised (Fulfils tt) ->
        fst (f b (snd (f a (world c0)))) = Promised (Fulfils tt) ->
        let both := run [CallSet a; CallSet b] (boot c0) in
        config both = mkConfig (this c0) (snd (f b (snd (f a (world c0)))))
                               (log c0 ++ [EvForward a; EvForward b])
        /\ config (run [Settle 0; Settle 1; RunJob; RunJob] both)
           = apply_updates [a; b] (config both)
        /\ config (run [Settle 0; RunJob; Settle 1; RunJob] both)
           = apply_updates [a; b] (config both)
        /\ config (run [Settle 1; Settle 0; RunJob; RunJob] both)
           = apply_updates [b; a] (config both)
        /\ config (run [Settle 1; RunJob; Settle 0; RunJob] both)
           = apply_updates [b; a] (config both))
  /\ (forall acts, in_resolution_order c0 (run acts (boot c0))).
Proof.
  split; [|split].
  - change (run [CallSet a; Settle 0; RunJob; CallSet b; Settle 1; RunJob] (boot c0))
      with (run [CallSet b; Settle 1; RunJob]
              (run [CallSet a; Settle (calls (boot c0)); RunJob] (boot c0))).
    destruct (awaited_set a (boot c0) (boot_idle c0)) as (Hc & Hn & Hi).
    set (st1 := run [CallSet a; Settle (calls (boot c0)); RunJob] (boot c0)) in *.
    cbn [boot calls] in Hn.
    destruct (awaited_set b st1 Hi) as (Hc2 & _ & _).
    rewrite Hn in Hc2. rewrite Hc2, Hc. reflexivity.
  - intros f Hf Ha Hb. cbv zeta.
    unfold run. cbn [fold_left step].
    rewrite !call_set_eq. cbn [boot config calls]. rewrite Hf. cbv zeta.
    rewrite Ha. cbn [next_call attach with_config config this world log calls].
    rewrite Hf. rewrite Hb.
    cbn [next_call attach with_config config this world log calls reactions].
    rewrite <- app_assoc. cbn [app].
    repeat split.
  - intros acts. apply run_in_resolution_order, boot_in_resolution_order.
Qed.

End ValueClass.

Arguments lastValue {World} _.
Arguments valueForwarder {World} _.
Arguments valueRequestor {World} _.
Arguments emitter {World} _.
Arguments on {World} name l v.
Arguments observers {World} v.
Arguments this {World} _.
Arguments world {World} _.
Arguments log {World} _.
Arguments start {World} o w.
Arguments notifyOfExternalUpdate {World} value _.
Arguments set {World} value _.
Arguments get {World} _.
Arguments run_op {World} op c.
Arguments run_ops {World} ops c.
Arguments config {World} _.
Arguments boot {World} c.
Arguments run {World} acts st.
Arguments apply_updates {World} vs c.
Arguments update_events {World} value o.
Arguments stored {World} value o.
Arguments notifyOfExternalUpdate_throwing {World} b value _.
Arguments set_throwing {World} b value _.
Arguments get_throwing {World} b _.
Arguments forwarder_raises {World} value c.
Arguments forwarder_passes {World} value c.
Arguments requestor_raises {World} c.
Arguments pulled {World} c.
Arguments observer_throws {World} b value o.

(** ** The scenarios of the specification *)

(** Initial value 10, no callbacks: [get()] gives 10; [set(20)] emits
    ['update'] with 20 and [get()] gives 20; a second [set(20)] emits
    nothing. *)
Example scenario_plain_value :
  let c0 := start (on "update" 1%positive (constructor unit (num 10) None None)) tt in
  let c1 := snd (set (num 20) c0) in
  let c2 := snd (set (num 20) c1) in
  fst (get c0) = Resolved (num 10)
  /\ log c1 = [EvStore (num 20); EvEmit "update" (num 20); EvListener 1%positive (num 20)]
  /\ fst (get c1) = Resolved (num 20)
  /\ c2 = c1
  /\ fst (get c2) = Resolved (num 20).
Proof. repeat split. Qed.

(** Initial value "off", requestor returning "on": [get()] gives "on" and
    one ['update'] event with "on" is emitted. *)
Example scenario_requestor :
  let c0 := start (on "update" 1%positive
                     (constructor unit (JsString "off") None
                        (Some (answering unit (Returned (JsString "on")))))) tt in
  fst (get c0) = Resolved (JsString "on")
  /\ log (snd (get c0))
     = [EvRequest; EvStore (JsString "on"); EvEmit "update" (JsString "on");
        EvListener 1%positive (JsString "on")]
  /\ count_emits (log (snd (get c0))) = 1.
Proof. repeat split. Qed.

(** Listeners of other events are not observers, and observers are called in
    the order they registered. *)
Example scenario_listeners :
  let o := on "update" 3%positive
             (on "close" 2%positive
                (on "update" 1%positive (constructor unit JsNull None None))) in
  log (snd (notifyOfExternalUpdate (JsBoolean true) (start o tt)))
  = [EvStore (JsBoolean true); EvEmit "update" (JsBoolean true);
     EvListener 1%positive (JsBoolean true); EvListener 3%positive (JsBoolean true)].
Proof. reflexivity. Qed.

(** The two zeros are [===]: a requestor returning -0 while +0 is stored
    makes [get()] resolve with -0 and leaves +0 stored, with no event. *)
Example scenario_zeros :
  let c0 := start (constructor unit pos_zero None
                     (Some (answering unit (Returned neg_zero)))) tt in
  fst (get c0) = Resolved neg_zero
  /\ lastValue (this (snd (get c0))) = pos_zero
  /\ strict_equals neg_zero pos_zero = true
  /\ log (snd (get c0)) = [EvRequest].
Proof. repeat split. Qed.

(** Integers as doubles: 10 is 5629499534213120 * 2^-49, a valid binary64. *)
Example num_10 :
  num 10 = JsNumber (S754_finite false 5629499534213120 (-49))
  /\ valid_binary 53 1024 (S754_finite false 5629499534213120 (-49)) = true.
Proof. split; reflexivity. Qed.

(** An offline device: [set] is rejected and the object keeps its value. *)
Example scenario_offline :
  let c0 := start (constructor JsValue (num 10) (Some offline_forwarder) None) (num 10) in
  fst (set (num 20) c0) = Rejected (JsString "offline")
  /\ lastValue (this (snd (set (num 20) c0))) = num 10
  /\ log (snd (set (num 20) c0)) = [EvForward (num 20)].
Proof. repeat split. Qed.

(** An observer that throws: [set(20)] is rejected with what it threw,
    after 20 was stored and announced; the observer registered after it is
    not called. *)
Example scenario_throwing_listener :
  let c0 := start (on "update" 2%positive
                     (on "update" 1%positive (constructor unit (num 10) None None)))
                  tt in
  let b := fun (l : Listener) (_ : JsValue) =>
             if Pos.eqb l 1 then Some (JsString "boom") else None in
  fst (set_throwing b (num 20) c0) = Rejected (JsString "boom")
  /\ lastValue (this (snd (set_throwing b (num 20) c0))) = num 20
  /\ log (snd (set_throwing b (num 20) c0))
     = [EvStore (num 20); EvEmit "update" (num 20); EvListener 1%positive (num 20)]
  /\ set_throwing quiet (num 20) c0 = set (num 20) c0.
Proof. repeat split. Qed.

(** ** Instances and counterexamples *)


(** C4, as stated, fails: with no forwarder, [set(NaN)] twice emits two
    ['update'] events, since NaN [!==] NaN. *)
Lemma deduplication_fails_on_NaN :
  ~ deduplication_as_stated unit (start (constructor unit (num 10) None None) tt) NaN.
Proof.
  intros H. destruct (H eq_refl) as (_ & Hcount).
  vm_compute in Hcount. discriminate Hcount.
Qed.


(** C2, as stated, fails: with no forwarder and an observer that throws,
    [set(20)] on a value holding 10 is rejected, although no forwarder
    raised, and 20 has been stored and announced. *)
Lemma set_failure_as_stated_fails_on_throwing_listener :
  ~ set_failure_as_stated unit throwing_listener
      (start (on "update" 1%positive (constructor unit (num 10) None None)) tt)
      (num 20).
Proof.
  intros [Hiff _].
  assert (Hfailed :
    failed (fst (set_throwing throwing_listener (num 20)
                   (start (on "update" 1%positive (constructor unit (num 10) None None))
                          tt))) = true) by reflexivity.
  apply Hiff in Hfailed. discriminate Hfailed.
Qed.

(** [set(20)] on an offline device, with an observer that would throw: the
    call fails because of the forwarder and changes nothing. *)
Lemma set_fails_on_offline_device :
  failed (fst (set_throwing throwing_listener (num 20)
                 (start (on "update" 1%positive
                           (constructor JsValue (num 10) (Some offline_forwarder) None))
                        (num 10)))) = true
  /\ this (snd (set_throwing throwing_listener (num 20)
                  (start (on "update" 1%positive
                            (constructor JsValue (num 10) (Some offline_forwarder) None))
                         (num 10))))
     = on "update" 1%positive
         (constructor JsValue (num 10) (Some offline_forwarder) None)
  /\ log (snd (set_throwing throwing_listener (num 20)
                 (start (on "update" 1%positive
                           (constructor JsValue (num 10) (Some offline_forwarder) None))
                        (num 10))))
     = [EvForward (num 20)].
Proof.
  destruct (set_fails_iff_forwarder_or_listener_raises JsValue throwing_listener (num 20)
              (start (on "update" 1%positive
                        (constructor JsValue (num 10) (Some offline_forwarder) None))
                     (num 10))) as (Hiff & _ & H).
  destruct (H eq_refl) as (Hthis & Hlog & _).
  split; [apply Hiff; left; reflexivity | split; [exact Hthis | exact Hlog]].
Defined.

(** [get()] with no requestor, one observer registered. *)
Lemma get_without_requestor_instance :
  valueRequestor (this (start (on "update" 1%positive
                                  (constructor unit (num 10) None None)) tt)) = None
  /\ get (start (on "update" 1%positive (constructor unit (num 10) None None)) tt)
     = (Resolved (num 10),
        start (on "update" 1%positive (constructor unit (num 10) None None)) tt).
Proof.
  split; [reflexivity|].
  apply (get_without_requestor_is_pure_read unit
           (start (on "update" 1%positive (constructor unit (num 10) None None)) tt)).
  reflexivity.
Defined.

(** C7, as stated, fails: with a requestor returning 20 and an observer
    that throws, [get()] on a value holding 10 is rejected, although the
    requestor did not raise, and the observer has been called. *)
Lemma get_failure_as_stated_fails_on_throwing_listener :
  ~ get_failure_as_stated unit throwing_listener
      (start (on "update" 1%positive
                (constructor unit (num 10) None
                   (Some (answering unit (Returned (num 20)))))) tt).
Proof.
  intros [Hiff _].
  assert (Hfailed :
    failed (fst (get_throwing throwing_listener
                   (start (on "update" 1%positive
                             (constructor unit (num 10) None
                                (Some (answering unit (Returned (num 20)))))) tt)))
    = true) by reflexivity.
  apply Hiff in Hfailed. discriminate Hfailed.
Qed.

(** [get()] with a requestor that throws, and an observer that would throw:
    the call fails because of the requestor and changes nothing. *)
Lemma get_fails_on_throwing_requestor :
  failed (fst (get_throwing throwing_listener
                 (start (on "update" 1%positive
                           (constructor unit (num 10) None
                              (Some (answering unit (Threw (JsString "no sensor"))))))
                        tt))) = true
  /\ this (snd (get_throwing throwing_listener
                  (start (on "update" 1%positive
                            (constructor unit (num 10) None
                               (Some (answering unit (Threw (JsString "no sensor"))))))
                         tt)))
     = on "update" 1%positive
         (constructor unit (num 10) None
            (Some (answering unit (Threw (JsString "no sensor")))))
  /\ log (snd (get_throwing throwing_listener
                 (start (on "update" 1%positive
                           (constructor unit (num 10) None
                              (Some (answering unit (Threw (JsString "no sensor"))))))
                        tt)))
     = [EvRequest].
Proof.
  destruct (get_fails_iff_requestor_or_listener_raises unit throwing_listener
              (start (on "update" 1%positive
                        (constructor unit (num 10) None
                           (Some (answering unit (Threw (JsString "no sensor"))))))
                     tt)) as (Hiff & H).
  destruct (H eq_refl) as (Hthis & Hlog & _).
  split; [apply Hiff; left; reflexivity | split; [exact Hthis | exact Hlog]].
Defined.

(** [set(20)] on a device holding 10: the forwarder call comes first, the
    store and the event after it. *)
Lemma set_forwards_then_commits_instance :
  valueForwarder (this (start (on "update" 1%positive
                                 (constructor JsValue (num 10) (Some device_forwarder) None))
                              (num 10)))
    = Some device_forwarder
  /\ strict_not_equals (num 20) (num 10) = true
  /\ exists rest,
       log (snd (set (num 20)
                   (start (on "update" 1%positive
                             (constructor JsValue (num 10) (Some device_forwarder) None))
                          (num 10))))
         = EvForward (num 20) :: rest
       /\ existsb is_forward rest = false
       /\ rest = [EvStore (num 20); EvEmit "update" (num 20);
                  EvListener 1%positive (num 20)]
       /\ lastValue (this (snd (set (num 20)
                   (start (on "update" 1%positive
                             (constructor JsValue (num 10) (Some device_forwarder) None))
                          (num 10)))))
          = num 20.
Proof.
  split; [reflexivity | split; [reflexivity|]].
  destruct (set_forwards_then_commits JsValue (num 20)
              (start (on "update" 1%positive
                        (constructor JsValue (num 10) (Some device_forwarder) None))
                     (num 10))
              device_forwarder eq_refl eq_refl) as (rest & Hlog & Hfwd & Hrest & Hthis).
  exists rest. split; [exact Hlog | split; [exact Hfwd | split; [exact Hrest|]]].
  rewrite Hthis. reflexivity.
Defined.


(** [set(20)] twice on a plain value holding 10. *)
Lemma set_twice_instance :
  num 20 <> NaN
  /\ snd (set (num 20) (snd (set (num 20) (start (constructor unit (num 10) None None) tt))))
     = snd (set (num 20) (start (constructor unit (num 10) None None) tt))
  /\ count_emits
       (log (snd (set (num 20)
                    (snd (set (num 20) (start (constructor unit (num 10) None None) tt))))))
     = 1.
Proof.
  assert (Hn : num 20 <> NaN) by discriminate.
  split; [exact Hn|].
  destruct (set_twice_deduplicates unit (start (constructor unit (num 10) None None) tt)
              (num 20) eq_refl Hn) as (_ & _ & Hsame & Hcount & _).
  split; [exact Hsame | exact Hcount].
Defined.


(** Two overlapping [set] calls on a device: the second promise is fulfilled
    first, so 30 is applied before 20 and 20 is the final value. *)
Lemma set_calls_overlap_instance :
  lastValue (this (config
    (run [CallSet (num 20); CallSet (num 30); Settle 1; Settle 0; RunJob; RunJob]
         (boot (start (constructor JsValue (num 10) (Some device_forwarder) None)
                      (num 10))))))
    = num 20
  /\ log (config
    (run [CallSet (num 20); CallSet (num 30); Settle 1; Settle 0; RunJob; RunJob]
         (boot (start (constructor JsValue (num 10) (Some device_forwarder) None)
                      (num 10)))))
     = [EvForward (num 20); EvForward (num 30);
        EvStore (num 30); EvEmit "update" (num 30);
        EvStore (num 20); EvEmit "update" (num 20)].
Proof.
  destruct (set_calls_apply_in_resolution_order JsValue
              (start (constructor JsValue (num 10) (Some device_forwarder) None) (num 10))
              (num 20) (num 30)) as (_ & H & _).
  destruct (H device_forwarder eq_refl eq_refl eq_refl) as (_ & _ & _ & Hba & _).
  change (run [CallSet (num 20); CallSet (num 30); Settle 1; Settle 0; RunJob; RunJob]
            (boot (start (constructor JsValue (num 10) (Some device_forwarder) None)
                         (num 10))))
    with (run [Settle 1; Settle 0; RunJob; RunJob]
            (run [CallSet (num 20); CallSet (num 30)]
               (boot (start (constructor JsValue (num 10) (Some device_forwarder) None)
                            (num 10))))).
  rewrite Hba. split; reflexivity.
Defined.

(** A device constructed with 10 never holds an empty value. *)
Lemma lastValue_never_empty_instance :
  is_empty (num 10) = false
  /\ (forall ops,
        is_empty (lastValue (this (run_ops ops
          (start (constructor JsValue (num 10) (Some device_forwarder)
                    (Some device_requestor)) JsNull)))) = false)
  /\ (forall acts,
        is_empty (lastValue (this (config (run acts (boot
          (start (constructor JsValue (num 10) (Some device_forwarder)
                    (Some device_requestor)) JsNull)))))) = false).
Proof.
  split; [reflexivity|].
  apply (lastValue_never_empty JsValue (num 10) (Some device_forwarder)
           (Some device_requestor) JsNull).
  reflexivity.
Defined.
